(** * BFS-Traversal: the traversal engine of [src/App.tsx]

    The application is one React component whose state is a handful of
    [useState] cells.  Every handler reads the cells of the render it was
    created in and calls setters with values computed from them, so a
    handler is a function from the component state to the component
    state.  The development embeds the handlers that way, drives them with
    an explicit event type, and proves the properties of the traversal
    (one BFS step, the frontier/visited discipline, identifiers, the
    narration fallback) on that embedding. *)

From stdpp Require Import list strings pretty sorting.

Local Open Scope string_scope.
Local Open Scope list_scope.
Local Open Scope nat_scope.

(** ** Data model *)

(** [interface Node { id: string; x: number; y: number }].  Positions are
    canvas coordinates; they are carried as integers, nothing in the
    traversal reads them. *)
Module Node.
Record t : Type := mk { id : string; x : Z; y : Z }.
End Node.

(** [interface Edge { from: string; to: string }] *)
Module Edge.
Record t : Type := mk { from : string; to : string }.
End Edge.

(** The [useState] cells of [App], in declaration order. *)
Record State : Type := mkState {
  nodes : list Node.t;
  edges : list Edge.t;
  selectedNode : option string;
  visitedNodes : list string;
  currentQueue : list string;
  isRunning : bool;
  startNode : option string;
  explanation : string;
  isDarkMode : bool;
  isMuted : bool
}.

(** The initial values given to [useState]. *)
Definition initialState : State :=
  {| nodes := []; edges := []; selectedNode := None; visitedNodes := [];
     currentQueue := []; isRunning := false; startNode := None;
     explanation := EmptyString; isDarkMode := false; isMuted := true |}.

(** The setters: each replaces one cell and leaves the others alone. *)
Definition setNodes (v : list Node.t) (st : State) : State :=
  {| nodes := v; edges := edges st; selectedNode := selectedNode st;
     visitedNodes := visitedNodes st; currentQueue := currentQueue st;
     isRunning := isRunning st; startNode := startNode st;
     explanation := explanation st; isDarkMode := isDarkMode st;
     isMuted := isMuted st |}.

Definition setEdges (v : list Edge.t) (st : State) : State :=
  {| nodes := nodes st; edges := v; selectedNode := selectedNode st;
     visitedNodes := visitedNodes st; currentQueue := currentQueue st;
     isRunning := isRunning st; startNode := startNode st;
     explanation := explanation st; isDarkMode := isDarkMode st;
     isMuted := isMuted st |}.

Definition setSelectedNode (v : option string) (st : State) : State :=
  {| nodes := nodes st; edges := edges st; selectedNode := v;
     visitedNodes := visitedNodes st; currentQueue := currentQueue st;
     isRunning := isRunning st; startNode := startNode st;
     explanation := explanation st; isDarkMode := isDarkMode st;
     isMuted := isMuted st |}.

Definition setVisitedNodes (v : list string) (st : State) : State :=
  {| nodes := nodes st; edges := edges st; selectedNode := selectedNode st;
     visitedNodes := v; currentQueue := currentQueue st;
     isRunning := isRunning st; startNode := startNode st;
     explanation := explanation st; isDarkMode := isDarkMode st;
     isMuted := isMuted st |}.

Definition setCurrentQueue (v : list string) (st : State) : State :=
  {| nodes := nodes st; edges := edges st; selectedNode := selectedNode st;
     visitedNodes := visitedNodes st; currentQueue := v;
     isRunning := isRunning st; startNode := startNode st;
     explanation := explanation st; isDarkMode := isDarkMode st;
     isMuted := isMuted st |}.

Definition setIsRunning (v : bool) (st : State) : State :=
  {| nodes := nodes st; edges := edges st; selectedNode := selectedNode st;
     visitedNodes := visitedNodes st; currentQueue := currentQueue st;
     isRunning := v; startNode := startNode st;
     explanation := explanation st; isDarkMode := isDarkMode st;
     isMuted := isMuted st |}.

Definition setStartNode (v : option string) (st : State) : State :=
  {| nodes := nodes st; edges := edges st; selectedNode := selectedNode st;
     visitedNodes := visitedNodes st; currentQueue := currentQueue st;
     isRunning := isRunning st; startNode := v;
     explanation := explanation st; isDarkMode := isDarkMode st;
     isMuted := isMuted st |}.

Definition setExplanation (v : string) (st : State) : State :=
  {| nodes := nodes st; edges := edges st; selectedNode := selectedNode st;
     visitedNodes := visitedNodes st; currentQueue := currentQueue st;
     isRunning := isRunning st; startNode := startNode st;
     explanation := v; isDarkMode := isDarkMode st;
     isMuted := isMuted st |}.

Definition setIsDarkMode (v : bool) (st : State) : State :=
  {| nodes := nodes st; edges := edges st; selectedNode := selectedNode st;
     visitedNodes := visitedNodes st; currentQueue := currentQueue st;
     isRunning := isRunning st; startNode := startNode st;
     explanation := explanation st; isDarkMode := v;
     isMuted := isMuted st |}.

Definition setIsMuted (v : bool) (st : State) : State :=
  {| nodes := nodes st; edges := edges st; selectedNode := selectedNode st;
     visitedNodes := visitedNodes st; currentQueue := currentQueue st;
     isRunning := isRunning st; startNode := startNode st;
     explanation := explanation st; isDarkMode := isDarkMode st;
     isMuted := v |}.

(** ** JavaScript helpers *)

(** Truthiness of a [string | null]: [null] and the empty string are
    falsy, every other string is truthy.  [!startNode] is [negb] of it. *)
Definition truthy (v : option string) : bool :=
  match v with
  | None => false
  | Some s => negb (String.eqb s EmptyString)
  end.

(** [Array.prototype.join] on strings. *)
Fixpoint join (sep : string) (l : list string) : string :=
  match l with
  | [] => EmptyString
  | [s] => s
  | s :: rest => s +:+ sep +:+ join sep rest
  end.

(** Template-literal conversion of a non-negative integer: its decimal
    digits. *)
Definition toString (n : nat) : string := pretty n.

(** ** Handlers *)

(** [resetVisualization] *)
Definition resetVisualization (st : State) : State :=
  setExplanation EmptyString
    (setStartNode None
      (setIsRunning false
        (setCurrentQueue []
          (setVisitedNodes [] st)))).

(** What [addNode] reads of its environment: the click position and the
    bounding rectangle of the canvas element. *)
Record MouseEvent : Type := mkMouseEvent { clientX : Z; clientY : Z }.
Record DOMRect : Type := mkDOMRect { left : Z; top : Z }.

(** [addNode]; [canvas] is [canvasRef.current], [None] when the ref is
    not attached. *)
Definition addNode (canvas : option DOMRect) (e : MouseEvent)
    (st : State) : State :=
  match canvas with
  | Some rect =>
      let x := (clientX e - left rect)%Z in
      let y := (clientY e - top rect)%Z in
      let newNode := Node.mk (toString (length (nodes st) + 1)) x y in
      setNodes (nodes st ++ [newNode]) st
  | None => st
  end.

(** [handleNodeClick] *)
Definition handleNodeClick (nodeId : string) (st : State) : State :=
  if negb (isRunning st) then
    match selectedNode st with
    | None => setSelectedNode (Some nodeId) st
    | Some selected =>
        if negb (String.eqb selected nodeId) then
          setSelectedNode None
            (setEdges (edges st ++ [Edge.mk selected nodeId]) st)
        else
          setSelectedNode None st
    end
  else if negb (truthy (startNode st)) then
    setCurrentQueue [nodeId]
      (setVisitedNodes [nodeId]
        (setStartNode (Some nodeId) st))
  else st.

(** [getNeighbors]: [filter] then [map] over the edge list. *)
Definition getNeighbors (es : list Edge.t) (nodeId : string) : list string :=
  (λ edge, if decide (Edge.from edge = nodeId) then Edge.to edge
           else Edge.from edge)
  <$> filter (λ edge, Edge.from edge = nodeId ∨ Edge.to edge = nodeId) es.

(** [performBFSStep] *)
Definition performBFSStep (st : State) : State :=
  match currentQueue st with
  | [] => st
  | currentNode :: _ =>
      if negb (truthy (startNode st)) then st
      else
        let newQueue := drop 1 (currentQueue st) in
        let neighbors := getNeighbors (edges st) currentNode in
        let unvisitedNeighbors :=
          filter (λ neighbor, neighbor ∉ visitedNodes st) neighbors in
        setVisitedNodes (visitedNodes st ++ unvisitedNeighbors)
          (setCurrentQueue (newQueue ++ unvisitedNeighbors) st)
  end.

(** [toggleDarkMode] *)
Definition toggleDarkMode (st : State) : State :=
  setIsDarkMode (negb (isDarkMode st)) st.

(** [toggleMute]; [audio] tells whether [audioRef.current] is attached.
    Playing and pausing the element is outside the component state. *)
Definition toggleMute (audio : bool) (st : State) : State :=
  if audio then setIsMuted (negb (isMuted st)) st else st.

(** The Start/Pause button: [setIsRunning(!isRunning)]. *)
Definition toggleRunning (st : State) : State :=
  setIsRunning (negb (isRunning st)) st.

(** The body of the interval effect: the timer is armed only while
    [isRunning && currentQueue.length > 0], and each firing calls
    [performBFSStep]. *)
Definition tick (st : State) : State :=
  if isRunning st && bool_decide (0 < length (currentQueue st))
  then performBFSStep st else st.

(** ** Narration *)

(** The outcome of the external text-generation call, everything between
    [try] and [catch]: either the text of the response, or an exception. *)
Inductive Outcome : Type :=
  | Resolved (text : string)
  | Thrown.

Definition fallbackMessage : string :=
  "Unable to generate explanation at this time.".

Definition newline : string := String (Ascii.ascii_of_nat 10) EmptyString.

(** The prompt template of [generateExplanation]. *)
Definition prompt (st : State) : string :=
  join newline
    [ EmptyString;
      "      Explain this BFS traversal step by step:";
      "      ";
      "      Graph Structure:";
      "      Nodes: " +:+ join ", " (Node.id <$> nodes st);
      "      Edges: " +:+
        join ", " ((λ e, Edge.from e +:+ "->" +:+ Edge.to e) <$> edges st);
      "      ";
      "      BFS Progress:";
      "      Current Queue: " +:+
        join ", " ((λ id, "Node " +:+ id) <$> currentQueue st);
      "      Visited Nodes: " +:+
        join ", " ((λ id, "Node " +:+ id) <$> visitedNodes st);
      "      ";
      "      Please explain:";
      "      1. What has happened so far in the traversal";
      "      2. What nodes are currently being considered";
      "      3. What will likely happen in the next step";
      "      Keep it concise and clear.";
      "    " ].

(** [generateExplanation].  The function is asynchronous: the guard and
    the prompt read the render [snapshot] it was called in, the external
    call [generateContent] settles some time later, and [setExplanation]
    then acts on whatever the component state is at that moment
    ([current]). *)
Definition generateExplanation (generateContent : string → Outcome)
    (snapshot current : State) : State :=
  if bool_decide (length (visitedNodes snapshot) = 0) then current
  else
    match generateContent (prompt snapshot) with
    | Resolved text => setExplanation text current
    | Thrown => setExplanation fallbackMessage current
    end.

(** ** Events *)

(** Everything that can happen to the component. *)
Inductive Event : Type :=
  | CanvasClick (canvas : option DOMRect) (e : MouseEvent)
  | NodeClick (nodeId : string)
  | StartPauseClick
  | ResetClick
  | TimerTick
  | DarkModeClick
  | MuteClick (audio : bool)
  | NarrationSettled (generateContent : string → Outcome) (snapshot : State).

Definition handle (ev : Event) (st : State) : State :=
  match ev with
  | CanvasClick canvas e => addNode canvas e st
  | NodeClick nodeId => handleNodeClick nodeId st
  | StartPauseClick => toggleRunning st
  | ResetClick => resetVisualization st
  | TimerTick => tick st
  | DarkModeClick => toggleDarkMode st
  | MuteClick audio => toggleMute audio st
  | NarrationSettled generateContent snapshot =>
      generateExplanation generateContent snapshot st
  end.

(** Events are handled one after the other, oldest first. *)
Definition run (evs : list Event) (st : State) : State :=
  foldl (λ s ev, handle ev s) st evs.

(** [step()] invoked [n] times. *)
Definition steps (n : nat) (st : State) : State :=
  Nat.iter n performBFSStep st.


(** ** The step as the specification words it *)

(** Neighbours of [current], edge by edge in insertion order: an edge
    matches when either endpoint is [current] and yields the other
    endpoint. *)
Fixpoint neighbors_spec (es : list Edge.t) (current : string) : list string :=
  match es with
  | [] => []
  | e :: rest =>
      if decide (Edge.from e = current) then
        Edge.to e :: neighbors_spec rest current
      else if decide (Edge.to e = current) then
        Edge.from e :: neighbors_spec rest current
      else neighbors_spec rest current
  end.

(** The neighbours that survive the membership filter against the visited
    sequence. *)
Definition fresh_spec (st : State) (current : string) : list string :=
  filter (λ n, n ∉ visitedNodes st) (neighbors_spec (edges st) current).

(** One step on a frontier [current :: rest]: the fresh neighbours go to
    the tail of the frontier without its head and to the tail of the
    visited sequence; no other cell changes. *)
Definition step_spec (current : string) (rest : list string)
    (st : State) : State :=
  {| nodes := nodes st; edges := edges st; selectedNode := selectedNode st;
     visitedNodes := visitedNodes st ++ fresh_spec st current;
     currentQueue := rest ++ fresh_spec st current;
     isRunning := isRunning st; startNode := startNode st;
     explanation := explanation st; isDarkMode := isDarkMode st;
     isMuted := isMuted st |}.

(** ** Graph notions *)

(** [u] and [v] are joined by an edge, in either direction. *)
Definition adjacent (es : list Edge.t) (u v : string) : Prop :=
  ∃ e, e ∈ es ∧
    ((Edge.from e = u ∧ Edge.to e = v) ∨ (Edge.to e = u ∧ Edge.from e = v)).

(** [v] is in the connected component of [s]. *)
Inductive connected (es : list Edge.t) (s : string) : string → Prop :=
  | connected_refl : connected es s s
  | connected_step u v :
      connected es s u → adjacent es u v → connected es s v.

(** Every endpoint of every edge is the identifier of a node. *)
Definition edges_closed (st : State) : Prop :=
  ∀ e, e ∈ edges st →
    Edge.from e ∈ (Node.id <$> nodes st) ∧ Edge.to e ∈ (Node.id <$> nodes st).

(** No two edges join the same pair of nodes: no node has a neighbour
    twice. *)
Definition simple_edges (es : list Edge.t) : Prop :=
  ∀ u, NoDup (getNeighbors es u).

(** Every element of the frontier is in the visited sequence. *)
Definition frontier_in_visited (st : State) : Prop :=
  ∀ x, x ∈ currentQueue st → x ∈ visitedNodes st.

(** ** Concrete graphs *)

(** Nodes 1..4 with edges (1-2), (1-3), (2-4) in that order, Start
    pressed, no start node chosen. *)
Definition exampleGraph : State :=
  {| nodes := [Node.mk "1" 10 10; Node.mk "2" 50 10;
               Node.mk "3" 10 50; Node.mk "4" 90 10];
     edges := [Edge.mk "1" "2"; Edge.mk "1" "3"; Edge.mk "2" "4"];
     selectedNode := None; visitedNodes := []; currentQueue := [];
     isRunning := true; startNode := None; explanation := EmptyString;
     isDarkMode := false; isMuted := true |}.

(** The user session that draws [exampleGraph]. *)
Definition exampleSession : list Event :=
  let canvas := Some (mkDOMRect 0 0) in
  [ CanvasClick canvas (mkMouseEvent 10 10);
    CanvasClick canvas (mkMouseEvent 50 10);
    CanvasClick canvas (mkMouseEvent 10 50);
    CanvasClick canvas (mkMouseEvent 90 10);
    NodeClick "1"; NodeClick "2";
    NodeClick "1"; NodeClick "3";
    NodeClick "2"; NodeClick "4";
    StartPauseClick ].

(** Two nodes joined twice: the user clicked 1 then 2, and again 1 then
    2. *)
Definition doubleEdgeSession : list Event :=
  let canvas := Some (mkDOMRect 0 0) in
  [ CanvasClick canvas (mkMouseEvent 10 10);
    CanvasClick canvas (mkMouseEvent 50 10);
    NodeClick "1"; NodeClick "2";
    NodeClick "1"; NodeClick "2";
    StartPauseClick;
    NodeClick "1" ].

Definition doubleEdgeStart : State := run doubleEdgeSession initialState.

(** ** Invariants *)

(** The identifiers of the nodes are 1, 2, ..., in list order. *)
Definition ids_sequential (st : State) : Prop :=
  Node.id <$> nodes st = toString <$> seq 1 (length (nodes st)).

(** The canvas clicks of a session that reach an attached canvas: the
    calls of [addNode] that create a node. *)
Definition creates (ev : Event) : bool :=
  match ev with
  | CanvasClick (Some _) _ => true
  | _ => false
  end.

Definition created (evs : list Event) : nat :=
  length (filter (λ ev, creates ev) evs).


(** ** The view *)

(** [nodes.find(n => n.id === nodeId)]: the first node with that
    identifier. *)
Definition findNode (nodeId : string) (st : State) : option Node.t :=
  List.find (λ n, String.eqb (Node.id n) nodeId) (nodes st).

(** [getNodeLabel] *)
Definition getNodeLabel (nodeId : string) (st : State) : string :=
  match findNode nodeId st with
  | Some node => "Node " +:+ Node.id node
  | None => EmptyString
  end.

(** The [<line>] drawn for an edge: its end points and its stroke. *)
Record Line : Type :=
  mkLine { x1 : Z; y1 : Z; x2 : Z; y2 : Z; stroke : string }.

(** The body of [edges.map] in the view; [None] is [return null]. *)
Definition renderEdge (st : State) (edge : Edge.t) : option Line :=
  match findNode (Edge.from edge) st, findNode (Edge.to edge) st with
  | Some fromNode, Some toNode =>
      let isVisited :=
        bool_decide (Edge.from edge ∈ visitedNodes st) &&
        bool_decide (Edge.to edge ∈ visitedNodes st) in
      Some (mkLine (Node.x fromNode) (Node.y fromNode)
                   (Node.x toNode) (Node.y toNode)
                   (if isVisited then "#22c55e"
                    else if isDarkMode st then "#4b5563" else "#94a3b8"))
  | _, _ => None
  end.

(** The colour classes chosen for a node in the body of [nodes.map]. *)
Definition nodeColor (st : State) (node : Node.t) : string :=
  let isVisited := bool_decide (Node.id node ∈ visitedNodes st) in
  let isInQueue := bool_decide (Node.id node ∈ currentQueue st) in
  let isSelected :=
    match selectedNode st with
    | Some selected => String.eqb selected (Node.id node)
    | None => false
    end in
  if isVisited then "bg-green-500 text-white"
  else if isInQueue then "bg-yellow-500 text-white"
  else if isSelected then "bg-blue-500 text-white"
  else if isDarkMode st then "bg-gray-700 text-gray-300"
  else "bg-gray-200 text-gray-700".

(** ** Sessions the view allows *)

(** The view attaches the node click handler to the nodes it draws, so
    a node click always carries the identifier of an existing node. *)
Definition enabled (ev : Event) (st : State) : bool :=
  match ev with
  | NodeClick nodeId => bool_decide (nodeId ∈ (Node.id <$> nodes st))
  | _ => true
  end.

Fixpoint wf_session (evs : list Event) (st : State) : bool :=
  match evs with
  | [] => true
  | ev :: rest => enabled ev st && wf_session rest (handle ev st)
  end.

(** What one event does to the graph and the traversal, case by case. *)
Inductive transition (ev : Event) (st st' : State) : Prop :=
  | t_view :
      nodes st' = nodes st → edges st' = edges st →
      selectedNode st' = selectedNode st →
      visitedNodes st' = visitedNodes st →
      currentQueue st' = currentQueue st →
      startNode st' = startNode st →
      transition ev st st'
  | t_addNode x y :
      st' = setNodes (nodes st ++
              [Node.mk (toString (length (nodes st) + 1)) x y]) st →
      transition ev st st'
  | t_select nodeId :
      ev = NodeClick nodeId → isRunning st = false →
      selectedNode st = None →
      st' = setSelectedNode (Some nodeId) st →
      transition ev st st'
  | t_connect selected nodeId :
      ev = NodeClick nodeId → isRunning st = false →
      selectedNode st = Some selected → selected ≠ nodeId →
      st' = setSelectedNode None
              (setEdges (edges st ++ [Edge.mk selected nodeId]) st) →
      transition ev st st'
  | t_cancel :
      isRunning st = false →
      st' = setSelectedNode None st →
      transition ev st st'
  | t_setStart nodeId :
      ev = NodeClick nodeId → isRunning st = true →
      truthy (startNode st) = false →
      st' = setCurrentQueue [nodeId]
              (setVisitedNodes [nodeId] (setStartNode (Some nodeId) st)) →
      transition ev st st'
  | t_step current rest :
      isRunning st = true →
      currentQueue st = current :: rest →
      truthy (startNode st) = true →
      st' = step_spec current rest st →
      transition ev st st'
  | t_reset :
      st' = resetVisualization st →
      transition ev st st'.

(** ** Session invariants *)

(** No edge joins a node to itself. *)
Definition no_self_loops (st : State) : Prop :=
  ∀ e, e ∈ edges st → Edge.from e ≠ Edge.to e.

(** What holds of the traversal cells after any session. *)
Record session_inv (st : State) : Prop := mk_session_inv {
  si_suffix : currentQueue st `suffix_of` visitedNodes st;
  si_unset : startNode st = None → visitedNodes st = [] ∧ currentQueue st = [];
  si_first : ∀ s, startNode st = Some s → ∃ rest, visitedNodes st = s :: rest;
  si_sound :
    ∀ s x, startNode st = Some s → x ∈ visitedNodes st →
           connected (edges st) s x;
  si_loops : no_self_loops st
}.

(** What holds in addition when node clicks hit existing nodes: every
    identifier the state mentions is the identifier of a node. *)
Record ids_inv (st : State) : Prop := mk_ids_inv {
  ii_seq : ids_sequential st;
  ii_edges : edges_closed st;
  ii_selected :
    ∀ s, selectedNode st = Some s → s ∈ (Node.id <$> nodes st);
  ii_start : ∀ s, startNode st = Some s → s ∈ (Node.id <$> nodes st);
  ii_visited : ∀ x, x ∈ visitedNodes st → x ∈ (Node.id <$> nodes st);
  ii_queue : ∀ x, x ∈ currentQueue st → x ∈ (Node.id <$> nodes st)
}.

(** ** Termination measure *)

(** The edges with an end point not visited yet. *)
Definition open_edges (st : State) : list Edge.t :=
  filter (λ e, Edge.from e ∉ visitedNodes st ∨ Edge.to e ∉ visitedNodes st)
         (edges st).

(** The budget of a traversal: the frontier plus the open edges. *)
Definition budget (st : State) : nat :=
  length (currentQueue st) + length (open_edges st).

(** The invariant of a traversal started at [s] on any graph, parallel
    edges included: the visited sequence may repeat a node, it still
    stays inside the component of [s] and closed under the neighbours
    of the processed nodes. *)
Record reach_inv (s : string) (processed : list string) (st : State) : Prop :=
  mk_reach_inv {
    ri_split : visitedNodes st = processed ++ currentQueue st;
    ri_start : s ∈ visitedNodes st;
    ri_sound : ∀ x, x ∈ visitedNodes st → connected (edges st) s x;
    ri_closed :
      ∀ u v, u ∈ processed → adjacent (edges st) u v → v ∈ visitedNodes st;
    ri_started : truthy (startNode st) = true
  }.

(** ** Distances *)

(** A walk of [n] edges from [s]. *)
Inductive walk (es : list Edge.t) (s : string) : nat → string → Prop :=
  | walk_O : walk es s 0 s
  | walk_S n u v : walk es s n u → adjacent es u v → walk es s (S n) v.

(** [d] is the distance from [s] to [x]: the length of a shortest walk. *)
Definition dist (es : list Edge.t) (s x : string) (d : nat) : Prop :=
  walk es s d x ∧ ∀ m, walk es s m x → d ≤ m.

(** [x] is at most as far from [s] as [y]. *)
Definition closer (es : list Edge.t) (s x y : string) : Prop :=
  ∀ dx dy, dist es s x dx → dist es s y dy → dx ≤ dy.

(** The invariant that makes the traversal breadth-first: the visited
    sequence is in order of distance, and nothing visited is more than
    one edge farther than the head of the frontier. *)
Record level_inv (s : string) (processed : list string) (st : State) : Prop :=
  mk_level_inv {
    li_split : visitedNodes st = processed ++ currentQueue st;
    li_start : s ∈ visitedNodes st;
    li_dist : ∀ x, x ∈ visitedNodes st → ∃ d, dist (edges st) s x d;
    li_sorted : StronglySorted (closer (edges st) s) (visitedNodes st);
    li_span :
      ∀ current rest y dc dy,
        currentQueue st = current :: rest → y ∈ visitedNodes st →
        dist (edges st) s current dc → dist (edges st) s y dy →
        dy ≤ dc + 1;
    li_closed :
      ∀ u v, u ∈ processed → adjacent (edges st) u v → v ∈ visitedNodes st;
    li_started : truthy (startNode st) = true
  }.

(** ** Basic facts *)

Example toString_12 : toString 12 = "12".
Proof. reflexivity. Qed.

Lemma exampleSession_draws : run exampleSession initialState = exampleGraph.
Proof. reflexivity. Qed.

Lemma getNeighbors_spec es current :
  getNeighbors es current = neighbors_spec es current.
Proof.
  unfold getNeighbors. induction es as [|e es IH]; [done|].
  cbn [neighbors_spec]. rewrite filter_cons.
  destruct (decide (Edge.from e = current)) as [Hf|Hf].
  - rewrite decide_True by auto. rewrite fmap_cons, decide_True by done.
    by rewrite IH.
  - destruct (decide (Edge.to e = current)) as [Ht|Ht].
    + rewrite decide_True by auto. rewrite fmap_cons, decide_False by done.
      by rewrite IH.
    + rewrite decide_False by tauto. done.
Qed.

Lemma elem_of_getNeighbors es u v :
  v ∈ getNeighbors es u ↔ adjacent es u v.
Proof.
  unfold getNeighbors, adjacent. rewrite list_elem_of_fmap. split.
  - intros (e & -> & He). apply list_elem_of_filter in He as [Hm He].
    exists e. split; [done|]. case_decide as Hd.
    + by left.
    + destruct Hm as [?|Ht]; [done|]. by right.
  - intros (e & He & Hm). exists e. split.
    + case_decide as Hd.
      * destruct Hm as [[_ <-]|[Ht <-]]; congruence.
      * destruct Hm as [[? _]|[_ <-]]; done.
    + apply list_elem_of_filter. split; [|done].
      destruct Hm as [[? _]|[? _]]; auto.
Qed.

Lemma truthy_Some_ne s : truthy (Some s) = true ↔ s ≠ EmptyString.
Proof.
  cbn. destruct (String.eqb_spec s EmptyString); cbn; split; congruence.
Qed.

(** ** C3: the worked example *)

(** C3. On nodes 1,2,3,4 with edges (1-2),(1-3),(2-4) in that order,
    choosing 1 as start gives visited [1] and frontier [1]; the first
    step gives visited [1,2,3] and frontier [2,3]; the second visited
    [1,2,3,4] and frontier [3,4]; the third frontier [4]; the fourth the
    empty frontier. *)
Theorem example_trace :
  let s0 := handleNodeClick "1" exampleGraph in
  let s1 := performBFSStep s0 in
  let s2 := performBFSStep s1 in
  let s3 := performBFSStep s2 in
  let s4 := performBFSStep s3 in
  (visitedNodes s0 = ["1"] ∧ currentQueue s0 = ["1"]) ∧
  (visitedNodes s1 = ["1"; "2"; "3"] ∧ currentQueue s1 = ["2"; "3"]) ∧
  (visitedNodes s2 = ["1"; "2"; "3"; "4"] ∧ currentQueue s2 = ["3"; "4"]) ∧
  (visitedNodes s3 = ["1"; "2"; "3"; "4"] ∧ currentQueue s3 = ["4"]) ∧
  (visitedNodes s4 = ["1"; "2"; "3"; "4"] ∧ currentQueue s4 = []).
Proof. vm_compute. repeat split. Qed.

(** ** Shape of one step *)

Lemma performBFSStep_fire st current rest :
  currentQueue st = current :: rest →
  truthy (startNode st) = true →
  performBFSStep st = step_spec current rest st.
Proof.
  intros Hq Hs. unfold performBFSStep, step_spec, fresh_spec.
  rewrite Hq, Hs. cbn. by rewrite getNeighbors_spec.
Qed.

Lemma performBFSStep_idle st :
  currentQueue st = [] ∨ truthy (startNode st) = false →
  performBFSStep st = st.
Proof.
  intros [Hq|Hs]; unfold performBFSStep.
  - by rewrite Hq.
  - rewrite Hs. by destruct (currentQueue st).
Qed.

Lemma tick_cases st : tick st = st ∨ tick st = performBFSStep st.
Proof. unfold tick. destruct (_ && _); auto. Qed.

(** ** C4: what one step does *)

(** C4. With a frontier [current :: rest] and a start node chosen, one
    step removes [current] from the head of the frontier, takes the
    neighbours of [current] edge by edge in insertion order (either
    endpoint matches, the other endpoint is the neighbour), drops those
    already in the visited sequence, and appends the remaining ones, in
    that order, to the tail of the frontier and to the tail of the
    visited sequence; the rest of the state is untouched. *)
Theorem step_pops_and_appends st current rest :
  currentQueue st = current :: rest →
  truthy (startNode st) = true →
  let fresh :=
    filter (λ n, n ∉ visitedNodes st) (neighbors_spec (edges st) current) in
  performBFSStep st = step_spec current rest st ∧
  currentQueue (performBFSStep st) = rest ++ fresh ∧
  visitedNodes (performBFSStep st) = visitedNodes st ++ fresh ∧
  getNeighbors (edges st) current = neighbors_spec (edges st) current.
Proof.
  intros Hq Hs fresh.
  rewrite (performBFSStep_fire st current rest Hq Hs).
  repeat split. apply getNeighbors_spec.
Qed.

Lemma step_pops_and_appends_witness :
  let st := handleNodeClick "1" exampleGraph in
  performBFSStep st = step_spec "1" [] st ∧
  currentQueue (performBFSStep st) = ["2"; "3"] ∧
  visitedNodes (performBFSStep st) = ["1"; "2"; "3"] ∧
  getNeighbors (edges st) "1" = ["2"; "3"].
Proof.
  exact (step_pops_and_appends (handleNodeClick "1" exampleGraph) "1" []
           eq_refl eq_refl).
Defined.

(** ** C5: choosing the start node *)

(** C5. While a run is on, a node click with no start node chosen yet
    sets the start node to the clicked node, the visited sequence to
    [[s]] and the frontier to [[s]]; once a start node is chosen a node
    click changes nothing. *)
Theorem setStart_seeds st s :
  isRunning st = true →
  (truthy (startNode st) = false →
     startNode (handleNodeClick s st) = Some s ∧
     visitedNodes (handleNodeClick s st) = [s] ∧
     currentQueue (handleNodeClick s st) = [s]) ∧
  (truthy (startNode st) = true → handleNodeClick s st = st).
Proof.
  intros Hr. unfold handleNodeClick. rewrite Hr. cbn.
  split; intros ->; cbn; auto.
Qed.

Lemma setStart_seeds_witness :
  startNode (handleNodeClick "3" exampleGraph) = Some "3" ∧
  visitedNodes (handleNodeClick "3" exampleGraph) = ["3"] ∧
  currentQueue (handleNodeClick "3" exampleGraph) = ["3"].
Proof.
  exact (proj1 (setStart_seeds exampleGraph "3" eq_refl) eq_refl).
Defined.

(** ** C6: a step with nothing to do *)

(** C6. When the frontier is empty or no start node is set, a step
    returns the state it was given, whole: nothing is changed and
    nothing is raised.  ([truthy] is false exactly for no start node and
    for the empty identifier.) *)
Theorem step_noop st :
  currentQueue st = [] ∨ startNode st = None ∨ truthy (startNode st) = false →
  performBFSStep st = st ∧ tick st = st.
Proof.
  intros H.
  assert (Hidle : performBFSStep st = st).
  { apply performBFSStep_idle.
    destruct H as [?|[Hn|?]]; auto. right. by rewrite Hn. }
  split; [done|]. by destruct (tick_cases st) as [->| ->].
Qed.

Lemma step_noop_witness :
  performBFSStep exampleGraph = exampleGraph ∧ tick exampleGraph = exampleGraph.
Proof. exact (step_noop exampleGraph (or_introl eq_refl)). Defined.

(** ** C7: connecting two nodes *)

(** C7. In editing mode with a pending node, a click on another node
    appends the one edge from the pending node to the clicked node and
    clears the pending selection; a click on the pending node itself
    adds no edge and clears the selection; the node list stays as it
    is either way. *)
Theorem connect_or_cancel st pending nodeId :
  isRunning st = false →
  selectedNode st = Some pending →
  (pending ≠ nodeId →
     handleNodeClick nodeId st =
       setSelectedNode None
         (setEdges (edges st ++ [Edge.mk pending nodeId]) st)) ∧
  (pending = nodeId → handleNodeClick nodeId st = setSelectedNode None st) ∧
  nodes (handleNodeClick nodeId st) = nodes st ∧
  selectedNode (handleNodeClick nodeId st) = None.
Proof.
  intros Hr Hsel. unfold handleNodeClick. rewrite Hr, Hsel. cbn.
  destruct (String.eqb_spec pending nodeId) as [->|Hne]; cbn;
    repeat split; intros; congruence.
Qed.

Lemma connect_or_cancel_witness :
  let st := setSelectedNode (Some "3") (setIsRunning false exampleGraph) in
  edges (handleNodeClick "4" st) =
    [Edge.mk "1" "2"; Edge.mk "1" "3"; Edge.mk "2" "4"; Edge.mk "3" "4"] ∧
  edges (handleNodeClick "3" st) =
    [Edge.mk "1" "2"; Edge.mk "1" "3"; Edge.mk "2" "4"] ∧
  selectedNode (handleNodeClick "4" st) = None ∧
  selectedNode (handleNodeClick "3" st) = None.
Proof.
  intros st.
  pose proof (connect_or_cancel st "3" "4" eq_refl eq_refl) as (H1 & _ & _ & H2).
  pose proof (connect_or_cancel st "3" "3" eq_refl eq_refl) as (_ & H3 & _ & H4).
  rewrite H1 by discriminate. rewrite H3 by reflexivity.
  repeat split.
Defined.

(** ** C9: the narration fallback *)

(** C9. When a narration call was made (the visited sequence of the
    calling render is not empty) and it raises, the explanation becomes
    the fixed fallback text, character for character; whatever the call
    does, nodes, edges, visited sequence, frontier, start node and
    running flag are the ones the component had when it settled. *)
Theorem narration_fallback generateContent snapshot current :
  (visitedNodes snapshot ≠ [] →
   generateContent (prompt snapshot) = Thrown →
   explanation (generateExplanation generateContent snapshot current)
     = "Unable to generate explanation at this time.") ∧
  let st' := generateExplanation generateContent snapshot current in
  nodes st' = nodes current ∧ edges st' = edges current ∧
  visitedNodes st' = visitedNodes current ∧
  currentQueue st' = currentQueue current ∧
  startNode st' = startNode current ∧ isRunning st' = isRunning current.
Proof.
  unfold generateExplanation. split.
  - intros Hv Hthrown. rewrite Hthrown.
    rewrite bool_decide_eq_false_2; [done|].
    by destruct (visitedNodes snapshot).
  - cbn. case_bool_decide; [done|].
    by destruct (generateContent _).
Qed.

Lemma narration_fallback_witness :
  let st := handleNodeClick "1" exampleGraph in
  explanation (generateExplanation (λ _, Thrown) st (performBFSStep st))
    = "Unable to generate explanation at this time.".
Proof.
  intros st.
  apply (proj1 (narration_fallback (λ _, Thrown) st (performBFSStep st)));
    [discriminate | reflexivity].
Defined.

(** ** C10: the frontier stays inside the visited sequence *)

Lemma performBFSStep_frontier st :
  frontier_in_visited st → frontier_in_visited (performBFSStep st).
Proof.
  intros Hinv.
  destruct (currentQueue st) as [|current rest] eqn:Hq.
  { by rewrite performBFSStep_idle by auto. }
  destruct (truthy (startNode st)) eqn:Hs.
  2: { by rewrite performBFSStep_idle by auto. }
  rewrite (performBFSStep_fire st current rest Hq Hs).
  intros x. cbn. rewrite !elem_of_app. intros [Hx|Hx]; [|by right].
  left. apply Hinv. rewrite Hq. by right.
Qed.

Lemma handleNodeClick_frontier nodeId st :
  frontier_in_visited st → frontier_in_visited (handleNodeClick nodeId st).
Proof.
  intros Hinv. unfold handleNodeClick.
  destruct (isRunning st); cbn.
  - destruct (truthy (startNode st)); cbn; [done|].
    intros x. by cbn.
  - destruct (selectedNode st) as [selected|]; [|done].
    by destruct (String.eqb selected nodeId).
Qed.

Lemma resetVisualization_frontier st :
  frontier_in_visited (resetVisualization st).
Proof. intros x. cbn. by intros ?%elem_of_nil. Qed.

Lemma handle_frontier ev st :
  frontier_in_visited st → frontier_in_visited (handle ev st).
Proof.
  intros Hinv. destruct ev as [canvas e|nodeId| | | | |audio|gen snap]; cbn.
  - unfold addNode. by destruct canvas.
  - by apply handleNodeClick_frontier.
  - done.
  - apply resetVisualization_frontier.
  - destruct (tick_cases st) as [->| ->]; [done|].
    by apply performBFSStep_frontier.
  - done.
  - unfold toggleMute. by destruct audio.
  - unfold generateExplanation. case_bool_decide; [done|].
    by destruct (gen _).
Qed.

(** C10. Every operation on the component keeps each element of the
    frontier in the visited sequence: choosing the start node, one
    step, reset, and with them every other event. *)
Theorem frontier_subset_visited ev st :
  frontier_in_visited st →
  frontier_in_visited (handle ev st) ∧
  (∀ s, frontier_in_visited (handleNodeClick s st)) ∧
  frontier_in_visited (performBFSStep st) ∧
  frontier_in_visited (resetVisualization st).
Proof.
  intros Hinv. split; [by apply handle_frontier|].
  split; [intros s; by apply handleNodeClick_frontier|].
  split; [by apply performBFSStep_frontier|].
  apply resetVisualization_frontier.
Qed.

Lemma frontier_subset_visited_witness :
  frontier_in_visited
    (handle TimerTick (handleNodeClick "1" exampleGraph)).
Proof.
  apply (frontier_subset_visited TimerTick (handleNodeClick "1" exampleGraph)).
  intros x. cbn. done.
Defined.

Lemma run_snoc evs ev st : run (evs ++ [ev]) st = handle ev (run evs st).
Proof. unfold run. by rewrite foldl_app. Qed.

(** The invariant holds in every state a session can reach. *)
Lemma frontier_in_visited_reachable evs :
  frontier_in_visited (run evs initialState).
Proof.
  induction evs as [|ev evs IH] using rev_ind.
  - intros x. cbn. by intros ?%elem_of_nil.
  - rewrite run_snoc. by apply handle_frontier.
Qed.

(** ** C8: node identifiers *)

#[local] Instance toString_inj : Inj (=) (=) toString.
Proof. intros m n H. by apply (inj pretty). Qed.

Lemma nodes_handle ev st :
  match ev with
  | CanvasClick (Some rect) e =>
      nodes (handle ev st) =
        nodes st ++ [Node.mk (toString (length (nodes st) + 1))
                       (clientX e - left rect) (clientY e - top rect)]
  | _ => nodes (handle ev st) = nodes st
  end.
Proof.
  destruct ev as [[rect|] e|nodeId| | | | |audio|gen snap]; cbn; try done.
  - unfold handleNodeClick.
    destruct (isRunning st), (truthy (startNode st)),
      (selectedNode st) as [selected|]; cbn; try done;
      by destruct (String.eqb selected nodeId).
  - unfold tick. destruct (_ && _); [|done]. unfold performBFSStep.
    destruct (currentQueue st); [done|].
    by destruct (truthy (startNode st)).
  - by destruct audio.
  - unfold generateExplanation. case_bool_decide; [done|].
    by destruct (gen _).
Qed.

Lemma created_snoc evs ev :
  created (evs ++ [ev]) =
    created evs +
      match ev with CanvasClick (Some _) _ => 1 | _ => 0 end.
Proof.
  unfold created. rewrite filter_app, length_app. f_equal.
  by destruct ev as [[rect|] e|nodeId| | | | |audio|gen snap].
Qed.

Lemma ids_sequential_handle ev st :
  ids_sequential st → ids_sequential (handle ev st).
Proof.
  unfold ids_sequential. intros Hinv. pose proof (nodes_handle ev st) as Hn.
  destruct ev as [[rect|] e|nodeId| | | | |audio|gen snap];
    rewrite Hn; try done.
  rewrite fmap_app, length_app, Hinv. cbn [length fmap list_fmap Node.id].
  rewrite seq_app, fmap_app. cbn. do 3 f_equal. lia.
Qed.

Lemma length_nodes_run evs :
  length (nodes (run evs initialState)) = created evs.
Proof.
  induction evs as [|ev evs IH] using rev_ind; [done|].
  rewrite run_snoc, created_snoc.
  pose proof (nodes_handle ev (run evs initialState)) as Hn.
  destruct ev as [[rect|] e|nodeId| | | | |audio|gen snap];
    rewrite Hn, ?length_app, IH; cbn; lia.
Qed.

Lemma ids_sequential_run evs : ids_sequential (run evs initialState).
Proof.
  induction evs as [|ev evs IH] using rev_ind; [done|].
  rewrite run_snoc. by apply ids_sequential_handle.
Qed.

(** C8. Whatever the session, the nodes created so far carry the
    identifiers "1", "2", ..., one per [addNode] call that created a
    node, in creation order: the n-th node of the list has the decimal
    form of n as identifier, the next node created gets the next
    integer and goes last, and no identifier occurs twice. *)
Theorem node_ids_sequential (evs : list Event) :
  let st := run evs initialState in
  Node.id <$> nodes st = toString <$> seq 1 (created evs) ∧
  (∀ n node, nodes st !! n = Some node → Node.id node = toString (S n)) ∧
  (∀ rect e,
     Node.id <$> nodes (addNode (Some rect) e st) =
       (Node.id <$> nodes st) ++ [toString (created evs + 1)]) ∧
  NoDup (Node.id <$> nodes st).
Proof.
  intros st.
  assert (Hids : Node.id <$> nodes st = toString <$> seq 1 (created evs)).
  { rewrite <- length_nodes_run. apply ids_sequential_run. }
  split; [done|]. split; [|split].
  - intros n node Hn.
    assert (Hid : (Node.id <$> nodes st) !! n = Some (Node.id node)).
    { by rewrite list_lookup_fmap, Hn. }
    rewrite Hids, list_lookup_fmap in Hid.
    destruct (seq 1 (created evs) !! n) as [k|] eqn:Hk; [|done].
    apply lookup_seq in Hk as [-> _]. cbn in Hid. congruence.
  - intros rect e. cbn. rewrite fmap_app. cbn.
    subst st. by rewrite (length_nodes_run evs).
  - rewrite Hids. apply NoDup_fmap_2; [apply _|apply NoDup_seq].
Qed.

Example node_ids_exampleSession :
  Node.id <$> nodes (run exampleSession initialState) = ["1"; "2"; "3"; "4"].
Proof. reflexivity. Qed.

(** ** Breadth-first search on graphs without parallel edges *)

Section Traversal.
Variable s : string.


Lemma fresh_spec_elem st current x :
  x ∈ fresh_spec st current ↔
    ((x ∉ visitedNodes st) ∧ adjacent (edges st) current x).
Proof.
  unfold fresh_spec.
  by rewrite list_elem_of_filter, <- getNeighbors_spec, elem_of_getNeighbors.
Qed.




Lemma steps_succ_r n st : steps (S n) st = steps n (performBFSStep st).
Proof. apply Nat.iter_succ_r. Qed.

End Traversal.

Lemma steps_idle n st : currentQueue st = [] → steps n st = st.
Proof.
  intros Hq. induction n as [|n IH]; [done|].
  change (steps (S n) st) with (performBFSStep (steps n st)).
  rewrite IH. apply performBFSStep_idle. auto.
Qed.

Lemma steps_add m n st : steps (m + n) st = steps m (steps n st).
Proof. apply Nat.iter_add. Qed.

Lemma steps_graph n st :
  nodes (steps n st) = nodes st ∧ edges (steps n st) = edges st.
Proof.
  induction n as [|n [IHn IHe]]; [done|].
  change (steps (S n) st) with (performBFSStep (steps n st)).
  rewrite <- IHn, <- IHe. set (st' := steps n st).
  unfold performBFSStep. destruct (currentQueue st'); [done|].
  by destruct (truthy (startNode st')).
Qed.


Lemma exampleGraph_simple : simple_edges (edges exampleGraph).
Proof.
  intros u. rewrite getNeighbors_spec.
  cbn [neighbors_spec edges exampleGraph Edge.from Edge.to].
  repeat case_decide; subst; try discriminate;
    by apply (bool_decide_unpack _).
Qed.



(** While a run is on, a timer tick is a step. *)
Lemma tick_running st : isRunning st = true → tick st = performBFSStep st.
Proof.
  intros Hr. unfold tick. rewrite Hr. cbn. case_bool_decide as Hlen; [done|].
  symmetry. apply performBFSStep_idle. left.
  destruct (currentQueue st); [done|]. cbn in Hlen. lia.
Qed.

(** X4. Without parallel edges no event makes the visited sequence
    repeat a node. *)
Lemma visited_NoDup_simple ev st :
  simple_edges (edges st) →
  NoDup (visitedNodes st) →
  NoDup (visitedNodes (handle ev st)).
Proof.
  intros Hsimple Hnd.
  assert (Hstep : NoDup (visitedNodes (performBFSStep st))).
  { destruct (currentQueue st) as [|current rest] eqn:Hq.
    { by rewrite performBFSStep_idle by auto. }
    destruct (truthy (startNode st)) eqn:Hs.
    2: { by rewrite performBFSStep_idle by auto. }
    rewrite (performBFSStep_fire st current rest Hq Hs). cbn.
    apply NoDup_app. split; [done|]. split.
    - intros x Hx [Hnx _]%list_elem_of_filter. done.
    - apply NoDup_filter. rewrite <- getNeighbors_spec. apply Hsimple. }
  destruct ev as [canvas e|nodeId| | | | |audio|gen snap]; cbn.
  - unfold addNode. by destruct canvas.
  - unfold handleNodeClick. destruct (isRunning st); cbn.
    + destruct (truthy (startNode st)); cbn; [done|]. apply NoDup_singleton.
    + destruct (selectedNode st) as [selected|]; [|done].
      by destruct (String.eqb selected nodeId).
  - done.
  - apply NoDup_nil_2.
  - by destruct (tick_cases st) as [->| ->].
  - done.
  - unfold toggleMute. by destruct audio.
  - unfold generateExplanation. case_bool_decide; [done|].
    by destruct (gen _).
Qed.

Lemma visited_NoDup_simple_witness :
  NoDup (visitedNodes (handle TimerTick (handleNodeClick "1" exampleGraph))).
Proof.
  apply (visited_NoDup_simple TimerTick (handleNodeClick "1" exampleGraph));
    [apply exampleGraph_simple | apply NoDup_singleton].
Defined.

(** ** C2: a node joined twice to the current node *)

Lemma doubleEdgeStart_state :
  doubleEdgeStart =
    {| nodes := [Node.mk "1" 10 10; Node.mk "2" 50 10];
       edges := [Edge.mk "1" "2"; Edge.mk "1" "2"];
       selectedNode := None; visitedNodes := ["1"]; currentQueue := ["1"];
       isRunning := true; startNode := Some "1"; explanation := EmptyString;
       isDarkMode := false; isMuted := true |}.
Proof. reflexivity. Qed.

(** C2. Two nodes, the edge 1-2 drawn twice, traversal started at 1:
    the first timer tick puts node 2 in the visited sequence twice. *)
Theorem duplicate_edge_revisits :
  visitedNodes (run (doubleEdgeSession ++ [TimerTick]) initialState)
    = ["1"; "2"; "2"] ∧
  currentQueue (run (doubleEdgeSession ++ [TimerTick]) initialState)
    = ["2"; "2"] ∧
  ¬ NoDup (visitedNodes (performBFSStep doubleEdgeStart)).
Proof.
  split; [reflexivity|]. split; [reflexivity|].
  change (visitedNodes (performBFSStep doubleEdgeStart))
    with ["1"; "2"; "2"].
  intros Hnd. apply NoDup_cons in Hnd as [_ Hnd].
  apply NoDup_cons in Hnd as [Hnotin _]. apply Hnotin. by left.
Qed.

(** ** C1: the same graph needs more than |V| steps *)

(** C1. On the two-node graph with the edge 1-2 drawn twice, every node
    is connected to the start node 1, yet the frontier is not empty
    after 0, 1 or 2 = |V| steps; it empties at the third step.  The
    visited sequence then holds the nodes of the component, node 2
    twice. *)
Theorem duplicate_edge_overruns :
  length (nodes doubleEdgeStart) = 2 ∧
  (∀ x, x ∈ (Node.id <$> nodes doubleEdgeStart) →
        connected (edges doubleEdgeStart) "1" x) ∧
  (∀ k, k ≤ length (nodes doubleEdgeStart) →
        currentQueue (steps k doubleEdgeStart) ≠ []) ∧
  currentQueue (steps 2 doubleEdgeStart) = ["2"] ∧
  currentQueue (steps 3 doubleEdgeStart) = [] ∧
  visitedNodes (steps 3 doubleEdgeStart) = ["1"; "2"; "2"].
Proof.
  split; [reflexivity|]. split; [|split].
  - intros x Hx. change (Node.id <$> nodes doubleEdgeStart) with ["1"; "2"] in Hx.
    apply elem_of_cons in Hx as [->|Hx]; [constructor|].
    apply list_elem_of_singleton in Hx as ->.
    apply connected_step with "1"; [constructor|].
    exists (Edge.mk "1" "2"). split; [by left | by left].
  - intros k Hk. change (length (nodes doubleEdgeStart)) with 2 in Hk.
    destruct k as [|[|[|k]]]; [done..|lia].
  - repeat split.
Qed.

(** ** Sessions *)

Lemma handle_transition ev st : transition ev st (handle ev st).
Proof.
  destruct ev as [[rect|] e|nodeId| | | | |audio|gen snap]; cbn.
  - by eapply t_addNode.
  - by apply t_view.
  - unfold handleNodeClick. destruct (isRunning st) eqn:Hr; cbn.
    + destruct (truthy (startNode st)) eqn:Hs; cbn.
      * by apply t_view.
      * by eapply t_setStart.
    + destruct (selectedNode st) as [selected|] eqn:Hsel.
      * destruct (String.eqb_spec selected nodeId) as [->|Hne]; cbn.
        -- by apply t_cancel.
        -- by eapply t_connect.
      * by eapply t_select.
  - by apply t_view.
  - by apply t_reset.
  - unfold tick. destruct (isRunning st) eqn:Hr; cbn; [|by apply t_view].
    case_bool_decide; [|by apply t_view].
    destruct (currentQueue st) as [|current rest] eqn:Hq.
    { rewrite performBFSStep_idle by auto. by apply t_view. }
    destruct (truthy (startNode st)) eqn:Hs.
    + eapply t_step; eauto. by apply performBFSStep_fire.
    + rewrite performBFSStep_idle by auto. by apply t_view.
  - by apply t_view.
  - unfold toggleMute. destruct audio; by apply t_view.
  - unfold generateExplanation. case_bool_decide; [by apply t_view|].
    destruct (gen _); by apply t_view.
Qed.

Lemma run_cons ev evs st : run (ev :: evs) st = run evs (handle ev st).
Proof. done. Qed.

Lemma run_app evs1 evs2 st : run (evs1 ++ evs2) st = run evs2 (run evs1 st).
Proof. unfold run. apply foldl_app. Qed.

(** An invariant of every event is an invariant of every session. *)
Lemma run_invariant (Inv : State → Prop) :
  (∀ ev st, Inv st → Inv (handle ev st)) →
  ∀ evs st, Inv st → Inv (run evs st).
Proof.
  intros Hstep evs. induction evs as [|ev evs IH]; intros st Hinv; [done|].
  rewrite run_cons. by apply IH, Hstep.
Qed.

(** The same for the sessions the view allows. *)
Lemma run_invariant_wf (Inv : State → Prop) :
  (∀ ev st, Inv st → enabled ev st = true → Inv (handle ev st)) →
  ∀ evs st, Inv st → wf_session evs st = true → Inv (run evs st).
Proof.
  intros Hstep evs. induction evs as [|ev evs IH]; intros st Hinv Hwf; [done|].
  cbn in Hwf. apply andb_prop in Hwf as [Hen Hwf].
  rewrite run_cons. by apply IH; [apply Hstep|].
Qed.

Lemma adjacent_mono es es' u v :
  (∀ e, e ∈ es → e ∈ es') → adjacent es u v → adjacent es' u v.
Proof. intros Hsub (e & He & Hm). exists e. split; [by apply Hsub | done]. Qed.

Lemma connected_mono es es' s x :
  (∀ e, e ∈ es → e ∈ es') → connected es s x → connected es' s x.
Proof.
  intros Hsub. induction 1 as [|u v _ IH Hadj]; [constructor|].
  apply connected_step with u; [done|]. by apply (adjacent_mono es).
Qed.

Lemma session_inv_init : session_inv initialState.
Proof.
  split; cbn.
  - done.
  - done.
  - done.
  - done.
  - intros e ?%elem_of_nil. done.
Qed.

Lemma session_inv_handle ev st :
  session_inv st → session_inv (handle ev st).
Proof.
  intros [Hsuf Hunset Hfirst Hsound Hloops].
  destruct (handle_transition ev st)
    as [Hn He Hsel Hv Hq Hs|x y ->|nodeId _ Hr Hsel ->
       |selected nodeId _ Hr Hsel Hne ->|Hr ->
       |nodeId _ Hr Hs ->|current rest Hr Hq Hs ->| ->].
  - split; unfold no_self_loops; rewrite ?Hv, ?Hq, ?Hs, ?He; done.
  - by split.
  - by split.
  - split; cbn; [done..| |].
    + intros s x Hs Hx. apply (connected_mono (edges st)); [|by apply Hsound].
      intros e He. apply elem_of_app. by left.
    + intros e [He| ->%list_elem_of_singleton]%elem_of_app; [by apply Hloops|].
      done.
  - by split.
  - split; cbn; [done|done| | |done].
    + intros s [= <-]. by exists [].
    + intros s x [= <-] ->%list_elem_of_singleton. constructor.
  - destruct Hsuf as [processed Hsplit].
    assert (Hcur : current ∈ visitedNodes st).
    { rewrite Hsplit, Hq, elem_of_app, elem_of_cons. auto. }
    split; cbn; [| | | |done].
    + exists (processed ++ [current]).
      by rewrite Hsplit, Hq, <- !app_assoc.
    + intros Hnone. by rewrite Hnone in Hs.
    + intros s Hsome. destruct (Hfirst s Hsome) as [rest' ->].
      by eexists.
    + intros s x Hsome [Hx|Hx]%elem_of_app; [by apply Hsound|].
      apply list_elem_of_filter in Hx as [_ Hx].
      rewrite <- getNeighbors_spec in Hx. apply elem_of_getNeighbors in Hx.
      apply connected_step with current; [by apply Hsound | done].
  - split; cbn; [done|done|done| |done].
    intros s x _ ?%elem_of_nil. done.
Qed.

Lemma session_inv_run evs : session_inv (run evs initialState).
Proof.
  apply (run_invariant session_inv); [apply session_inv_handle|].
  apply session_inv_init.
Qed.

(** X5. After any session the frontier is the tail end of the visited
    sequence: the visited sequence is the nodes already processed
    followed by the frontier, in order. *)
Theorem frontier_is_tail_of_visited (evs : list Event) :
  let st := run evs initialState in
  ∃ processed, visitedNodes st = processed ++ currentQueue st.
Proof. apply (si_suffix _ (session_inv_run evs)). Qed.

(** X6. After any session, with no start node nothing is visited and the
    frontier is empty; with a start node, it is the first element of the
    visited sequence. *)
Theorem start_node_heads_visited (evs : list Event) :
  let st := run evs initialState in
  (startNode st = None → visitedNodes st = [] ∧ currentQueue st = []) ∧
  (∀ s, startNode st = Some s → head (visitedNodes st) = Some s).
Proof.
  cbn zeta. pose proof (session_inv_run evs) as Hinv. split.
  - apply (si_unset _ Hinv).
  - intros s Hs. destruct (si_first _ Hinv s Hs) as [rest ->]. done.
Qed.

(** X7. After any session, also one in which edges were added while the run
    was paused, every visited node is connected to the start node by the
    edges of the state. *)
Theorem visited_connected_to_start (evs : list Event) :
  let st := run evs initialState in
  ∀ s x, startNode st = Some s → x ∈ visitedNodes st →
         connected (edges st) s x.
Proof. apply (si_sound _ (session_inv_run evs)). Qed.

Lemma visited_connected_to_start_witness :
  let st := run (exampleSession ++ [NodeClick "1"; TimerTick]) initialState in
  connected (edges st) "1" "3".
Proof.
  apply (visited_connected_to_start
           (exampleSession ++ [NodeClick "1"; TimerTick]) "1" "3" eq_refl).
  by apply (bool_decide_unpack _).
Defined.

(** X8. No session creates an edge from a node to itself. *)
Theorem no_self_loop_created (evs : list Event) :
  ∀ e, e ∈ edges (run evs initialState) → Edge.from e ≠ Edge.to e.
Proof. apply (si_loops _ (session_inv_run evs)). Qed.

Lemma no_self_loop_created_witness :
  Edge.from (Edge.mk "2" "4") ≠ Edge.to (Edge.mk "2" "4").
Proof.
  apply (no_self_loop_created exampleSession (Edge.mk "2" "4")).
  apply list_elem_of_In. vm_compute. auto.
Defined.

(** ** Identifiers in the sessions the view allows *)

Lemma pretty_N_go_length (x : N) s :
  String.length s ≤ String.length (pretty_N_go x s).
Proof.
  revert s. induction x as [x IH] using (well_founded_induction N.lt_wf_0).
  intros s. destruct (decide (x = 0%N)) as [->|Hx].
  - by rewrite pretty_N_go_0.
  - assert (Hpos : (0 < x)%N) by lia.
    rewrite pretty_N_go_step by done.
    specialize (IH (x `div` 10)%N (N.div_lt x 10 Hpos eq_refl)
                  (String (pretty_N_char (x `mod` 10)) s)).
    etrans; [|exact IH]. cbn [String.length]. lia.
Qed.

Lemma toString_nonempty n : toString n ≠ EmptyString.
Proof.
  unfold toString, pretty, pretty_nat, pretty, pretty_N.
  case_decide as Hn; [done|].
  assert (Hpos : (0 < N.of_nat n)%N) by lia.
  rewrite pretty_N_go_step by done. intros Hempty.
  pose proof (pretty_N_go_length (N.of_nat n `div` 10)
    (String (pretty_N_char (N.of_nat n `mod` 10)) EmptyString)) as Hlen.
  rewrite Hempty in Hlen. cbn [String.length] in Hlen. lia.
Qed.

Lemma ids_inv_init : ids_inv initialState.
Proof. split; cbn; try done; by intros ? ?%elem_of_nil. Qed.

Lemma ids_inv_handle ev st :
  ids_inv st → enabled ev st = true → ids_inv (handle ev st).
Proof.
  intros [Hseq Hedges Hsel Hstart Hvis Hqueue] Hen.
  pose proof (ids_sequential_handle ev st Hseq) as Hseq'.
  destruct (handle_transition ev st)
    as [Hn He Hsl Hv Hq Hs|x y Heq|nodeId -> Hr Hsl Heq
       |selected nodeId -> Hr Hsl Hne Heq|Hr Heq
       |nodeId -> Hr Hs Heq|current rest Hr Hq Hs Heq|Heq].
  - split; [done|..]; unfold edges_closed; rewrite ?Hn, ?He, ?Hsl, ?Hv, ?Hq, ?Hs;
      done.
  - split; [done|..]; rewrite Heq; unfold edges_closed; cbn;
      setoid_rewrite fmap_app; setoid_rewrite elem_of_app; [|by auto..].
    intros e He. destruct (Hedges e He). auto.
  - cbn in Hen. apply bool_decide_eq_true in Hen.
    split; [done|..]; rewrite Heq; cbn; try done.
    all: by intros s [= <-].
  - cbn in Hen. apply bool_decide_eq_true in Hen.
    split; [done|..]; rewrite Heq; unfold edges_closed; cbn; try done.
    all: intros e [He| ->%list_elem_of_singleton]%elem_of_app;
      [by apply Hedges|].
    all: cbn; split; [by apply Hsel | done].
  - split; [done|..]; rewrite Heq; cbn; done.
  - cbn in Hen. apply bool_decide_eq_true in Hen.
    split; [done|..]; rewrite Heq; cbn; try done.
    all: try by intros s [= <-].
    all: by intros x ->%list_elem_of_singleton.
  - assert (Hfresh : ∀ x, x ∈ fresh_spec st current →
                          x ∈ (Node.id <$> nodes st)).
    { intros x [_ Hadj]%fresh_spec_elem.
      destruct Hadj as (e & He & [[_ <-]|[_ <-]]); by apply Hedges. }
    assert (Hrest : ∀ x, x ∈ rest → x ∈ (Node.id <$> nodes st)).
    { intros x Hx. apply Hqueue. rewrite Hq. by right. }
    split; [done|..]; rewrite Heq; cbn; try done.
    all: intros x [Hx|Hx]%elem_of_app; auto.
  - split; [done|..]; rewrite Heq; cbn; try done.
    all: by intros x ?%elem_of_nil.
Qed.

Lemma ids_inv_run evs :
  wf_session evs initialState = true → ids_inv (run evs initialState).
Proof.
  apply (run_invariant_wf ids_inv); [apply ids_inv_handle|apply ids_inv_init].
Qed.

Lemma ids_nonempty st id :
  ids_sequential st → id ∈ (Node.id <$> nodes st) → id ≠ EmptyString.
Proof.
  unfold ids_sequential. intros -> (n & -> & _)%list_elem_of_fmap.
  apply toString_nonempty.
Qed.

(** X9. In a session where node clicks hit existing nodes, every
    identifier the state holds names an existing node: the end points of every
    edge, the pending selection, the start node, and every element of
    the visited sequence and of the frontier. *)
Theorem identifiers_name_nodes (evs : list Event) :
  wf_session evs initialState = true →
  let st := run evs initialState in
  let ids := Node.id <$> nodes st in
  (∀ e, e ∈ edges st → Edge.from e ∈ ids ∧ Edge.to e ∈ ids) ∧
  (∀ s, selectedNode st = Some s → s ∈ ids) ∧
  (∀ s, startNode st = Some s → s ∈ ids) ∧
  (∀ x, x ∈ visitedNodes st → x ∈ ids) ∧
  (∀ x, x ∈ currentQueue st → x ∈ ids).
Proof.
  intros Hwf. destruct (ids_inv_run evs Hwf) as [_ H1 H2 H3 H4 H5].
  cbn zeta. repeat split; auto; by apply H1.
Qed.

Lemma identifiers_name_nodes_witness :
  let st := run (exampleSession ++ [NodeClick "1"; TimerTick]) initialState in
  "3" ∈ (Node.id <$> nodes st).
Proof.
  apply (proj2 (proj2 (proj2 (proj2
    (identifiers_name_nodes
       (exampleSession ++ [NodeClick "1"; TimerTick]) eq_refl)))) "3").
  by apply (bool_decide_unpack _).
Defined.

(** X10. In a session where node clicks hit existing nodes, no node
    identifier is the empty string, so the
    start-node guard of a step only fails when no start node is set,
    and a step on a non-empty frontier always takes its head off and
    appends the fresh neighbours: the traversal cannot stall. *)
Theorem step_never_stalls (evs : list Event) :
  wf_session evs initialState = true →
  let st := run evs initialState in
  (∀ id, id ∈ (Node.id <$> nodes st) → id ≠ EmptyString) ∧
  (truthy (startNode st) = false → startNode st = None) ∧
  (∀ current rest, currentQueue st = current :: rest →
     performBFSStep st = step_spec current rest st).
Proof.
  intros Hwf. cbn zeta.
  pose proof (ids_inv_run evs Hwf) as Hids.
  pose proof (session_inv_run evs) as Hses.
  set (st := run evs initialState) in *.
  assert (Hne : ∀ id, id ∈ (Node.id <$> nodes st) → id ≠ EmptyString).
  { intros id. apply ids_nonempty, (ii_seq _ Hids). }
  assert (Hguard : truthy (startNode st) = false → startNode st = None).
  { destruct (startNode st) as [s|] eqn:Hs; [|done].
    intros Hfalse. assert (truthy (Some s) = true); [|congruence].
    apply truthy_Some_ne, Hne, (ii_start _ Hids s Hs). }
  split; [done|]. split; [done|].
  intros current rest Hq. apply performBFSStep_fire; [done|].
  destruct (truthy (startNode st)) eqn:Hs; [done|].
  destruct (si_unset _ Hses (Hguard eq_refl)) as [_ Hempty]. congruence.
Qed.

Lemma step_never_stalls_witness :
  let st := run (exampleSession ++ [NodeClick "1"; TimerTick]) initialState in
  performBFSStep st = step_spec "2" ["3"] st.
Proof.
  exact (proj2 (proj2
    (step_never_stalls (exampleSession ++ [NodeClick "1"; TimerTick]) eq_refl))
    "2" ["3"] eq_refl).
Defined.

(** ** The view *)

Lemma findNode_Some nodeId st node :
  findNode nodeId st = Some node → node ∈ nodes st ∧ Node.id node = nodeId.
Proof.
  unfold findNode. intros [Hin Heq]%find_some.
  split; [by apply list_elem_of_In|]. by apply String.eqb_eq.
Qed.

Lemma findNode_None nodeId st :
  findNode nodeId st = None → nodeId ∉ (Node.id <$> nodes st).
Proof.
  unfold findNode. intros Hnone (node & -> & Hin)%list_elem_of_fmap.
  apply list_elem_of_In in Hin.
  pose proof (find_none _ _ Hnone node Hin) as Hneq. cbn in Hneq.
  by rewrite String.eqb_refl in Hneq.
Qed.

Lemma findNode_elem nodeId st :
  nodeId ∈ (Node.id <$> nodes st) →
  ∃ node, findNode nodeId st = Some node ∧ node ∈ nodes st ∧
          Node.id node = nodeId.
Proof.
  intros Hin. destruct (findNode nodeId st) as [node|] eqn:Hfind.
  - exists node. split; [done|]. by apply findNode_Some.
  - by apply findNode_None in Hfind.
Qed.

(** X17. The label of an identifier is "Node " followed by the identifier
    when some node carries it, and the empty string when none does. *)
Theorem getNodeLabel_known_or_blank (nodeId : string) (st : State) :
  getNodeLabel nodeId st =
    if bool_decide (nodeId ∈ (Node.id <$> nodes st))
    then "Node " +:+ nodeId else EmptyString.
Proof.
  unfold getNodeLabel. destruct (findNode nodeId st) as [node|] eqn:Hfind.
  - apply findNode_Some in Hfind as [Hin <-].
    rewrite bool_decide_eq_true_2; [done|].
    apply list_elem_of_fmap. by exists node.
  - apply findNode_None in Hfind. by rewrite bool_decide_eq_false_2.
Qed.

(** X18. In a session where node clicks hit existing nodes, every entry
    of the queue panel and of the visited panel gets its "Node n" label:
    no entry is shown blank. *)
Theorem panels_show_labels (evs : list Event) :
  wf_session evs initialState = true →
  let st := run evs initialState in
  ∀ x, x ∈ currentQueue st ∨ x ∈ visitedNodes st →
       getNodeLabel x st = "Node " +:+ x.
Proof.
  intros Hwf st x Hx. pose proof (ids_inv_run evs Hwf) as Hids.
  assert (Hin : x ∈ (Node.id <$> nodes st)).
  { destruct Hx; [by apply (ii_queue _ Hids) | by apply (ii_visited _ Hids)]. }
  destruct (findNode_elem x st Hin) as (node & Hfind & _ & Hid).
  unfold getNodeLabel. by rewrite Hfind, Hid.
Qed.

Lemma panels_show_labels_witness :
  let st := run (exampleSession ++ [NodeClick "1"; TimerTick]) initialState in
  getNodeLabel "3" st = "Node 3".
Proof.
  apply (panels_show_labels
           (exampleSession ++ [NodeClick "1"; TimerTick]) eq_refl "3").
  left. by apply (bool_decide_unpack _).
Defined.

(** X19. After any session a node is drawn green exactly when it is in the
    visited sequence, and no node is ever drawn in the yellow of the
    frontier: a node in the frontier is in the visited sequence, and
    the visited colour is tested first. *)
Theorem frontier_colour_never_shown (evs : list Event) (node : Node.t) :
  let st := run evs initialState in
  nodeColor st node ≠ "bg-yellow-500 text-white" ∧
  (nodeColor st node = "bg-green-500 text-white" ↔
     Node.id node ∈ visitedNodes st).
Proof.
  cbn zeta. pose proof (frontier_in_visited_reachable evs (Node.id node)) as Hfv.
  set (st := run evs initialState) in *. unfold nodeColor.
  destruct (decide (Node.id node ∈ visitedNodes st)) as [Hv|Hv].
  - rewrite (bool_decide_eq_true_2 _ Hv). done.
  - rewrite (bool_decide_eq_false_2 _ Hv).
    rewrite bool_decide_eq_false_2 by auto.
    split; [|split; [|done]];
      destruct (match selectedNode st with
                | Some selected => String.eqb selected (Node.id node)
                | None => false end), (isDarkMode st); discriminate.
Qed.

(** X20. In a session where node clicks hit existing nodes every edge
    is drawn: both end points are found among the nodes, the line runs
    between their positions, and it is green exactly when both end
    points are visited. *)
Theorem every_edge_drawn (evs : list Event) :
  wf_session evs initialState = true →
  let st := run evs initialState in
  ∀ e, e ∈ edges st →
    ∃ fromNode toNode line,
      renderEdge st e = Some line ∧
      fromNode ∈ nodes st ∧ Node.id fromNode = Edge.from e ∧
      toNode ∈ nodes st ∧ Node.id toNode = Edge.to e ∧
      (x1 line, y1 line) = (Node.x fromNode, Node.y fromNode) ∧
      (x2 line, y2 line) = (Node.x toNode, Node.y toNode) ∧
      (stroke line = "#22c55e" ↔
         Edge.from e ∈ visitedNodes st ∧ Edge.to e ∈ visitedNodes st).
Proof.
  intros Hwf st e He. pose proof (ids_inv_run evs Hwf) as Hids.
  destruct (ii_edges _ Hids e He) as [Hfrom Hto].
  destruct (findNode_elem _ st Hfrom) as (fromNode & Hf & Hfin & Hfid).
  destruct (findNode_elem _ st Hto) as (toNode & Ht & Htin & Htid).
  unfold renderEdge. rewrite Hf, Ht.
  eexists fromNode, toNode, _. split; [done|]. cbn.
  do 6 (split; [done|]). split.
  - intros Hstroke.
    destruct (decide (Edge.from e ∈ visitedNodes st)) as [Hvf|Hn].
    + split; [done|].
      destruct (decide (Edge.to e ∈ visitedNodes st)) as [?|Hn]; [done|].
      rewrite (bool_decide_eq_false_2 _ Hn), andb_false_r in Hstroke.
      by destruct (isDarkMode st).
    + rewrite (bool_decide_eq_false_2 _ Hn) in Hstroke. cbn in Hstroke.
      by destruct (isDarkMode st).
  - intros [Hvf Hvt].
    by rewrite (bool_decide_eq_true_2 _ Hvf), (bool_decide_eq_true_2 _ Hvt).
Qed.

Lemma every_edge_drawn_witness :
  let st := run (exampleSession ++ [NodeClick "1"; TimerTick]) initialState in
  ∃ fromNode toNode line,
    renderEdge st (Edge.mk "1" "3") = Some line ∧
    fromNode ∈ nodes st ∧ Node.id fromNode = "1" ∧
    toNode ∈ nodes st ∧ Node.id toNode = "3" ∧
    (x1 line, y1 line) = (Node.x fromNode, Node.y fromNode) ∧
    (x2 line, y2 line) = (Node.x toNode, Node.y toNode) ∧
    (stroke line = "#22c55e" ↔
       "1" ∈ visitedNodes st ∧ "3" ∈ visitedNodes st).
Proof.
  apply (every_edge_drawn
           (exampleSession ++ [NodeClick "1"; TimerTick]) eq_refl
           (Edge.mk "1" "3")).
  apply list_elem_of_In. vm_compute. auto.
Defined.

(** ** Editing, pausing and restarting *)

(** X13. In editing mode with nothing selected, clicking a node twice leaves
    the state exactly as it was, and clicking a node and then another
    one adds the edge between them, in click order, and nothing else. *)
Theorem two_clicks_draw_an_edge (st : State) (a b : string) :
  isRunning st = false →
  selectedNode st = None →
  handleNodeClick a (handleNodeClick a st) = st ∧
  (a ≠ b →
   handleNodeClick b (handleNodeClick a st) =
     setEdges (edges st ++ [Edge.mk a b]) st).
Proof.
  intros Hr Hsel. destruct st as [ns es sel vis q r start ex dark mute].
  cbn in Hr, Hsel. subst r sel. unfold handleNodeClick. cbn.
  rewrite String.eqb_refl. cbn. split; [done|].
  intros Hne. apply String.eqb_neq in Hne. by rewrite Hne.
Qed.

Lemma two_clicks_draw_an_edge_witness :
  handleNodeClick "2" (handleNodeClick "2" initialState) = initialState ∧
  handleNodeClick "3" (handleNodeClick "2" initialState) =
    setEdges [Edge.mk "2" "3"] initialState.
Proof.
  pose proof (two_clicks_draw_an_edge initialState "2" "3" eq_refl eq_refl)
    as [H1 H2].
  split; [exact H1|]. apply H2. discriminate.
Defined.

(** X15. Whatever the state, Reset, then Start, then a click on a node [s]
    begins a new traversal at [s] on the same graph: the nodes and edges
    are those of before, the explanation is cleared, and visited
    sequence and frontier are [[s]]. *)
Theorem reset_then_restart (st : State) (s : string) :
  let st' := run [ResetClick; StartPauseClick; NodeClick s] st in
  nodes st' = nodes st ∧ edges st' = edges st ∧
  selectedNode st' = selectedNode st ∧
  explanation st' = EmptyString ∧
  isRunning st' = true ∧ startNode st' = Some s ∧
  visitedNodes st' = [s] ∧ currentQueue st' = [s].
Proof. cbn. unfold handleNodeClick. cbn. done. Qed.

(** X14. Pausing a run freezes the traversal: a timer tick does nothing, node
    clicks (which go back to edge drawing) leave start node, visited
    sequence and frontier alone, and pressing the button again gives
    back the state the run was paused in. *)
Theorem pause_freezes_traversal (st : State) :
  isRunning st = true →
  let paused := toggleRunning st in
  tick paused = paused ∧
  toggleRunning paused = st ∧
  ∀ nodeId,
    startNode (handleNodeClick nodeId paused) = startNode st ∧
    visitedNodes (handleNodeClick nodeId paused) = visitedNodes st ∧
    currentQueue (handleNodeClick nodeId paused) = currentQueue st.
Proof.
  intros Hr. destruct st as [ns es sel vis q r start ex dark mute].
  cbn in Hr. subst r. cbn. unfold tick, toggleRunning, handleNodeClick. cbn.
  repeat split; destruct sel as [selected|]; cbn; try done;
    by destruct (String.eqb selected nodeId).
Qed.

Lemma pause_freezes_traversal_witness :
  let st := performBFSStep (handleNodeClick "1" exampleGraph) in
  tick (toggleRunning st) = toggleRunning st ∧
  toggleRunning (toggleRunning st) = st.
Proof.
  pose proof (pause_freezes_traversal
    (performBFSStep (handleNodeClick "1" exampleGraph)) eq_refl) as (H1 & H2 & _).
  split; [exact H1 | exact H2].
Defined.

Lemma handle_graph_grows ev st :
  nodes st `prefix_of` nodes (handle ev st) ∧
  edges st `prefix_of` edges (handle ev st) ∧
  (isRunning st = true → edges (handle ev st) = edges st).
Proof.
  destruct (handle_transition ev st)
    as [Hn He Hsl Hv Hq Hs|x y ->|nodeId _ Hr Hsl ->
       |selected nodeId _ Hr Hsl Hne ->|Hr ->
       |nodeId _ Hr Hs ->|current rest Hr Hq Hs ->| ->]; cbn;
    rewrite ?Hn, ?He; try done.
  - split; [by apply prefix_app_r|done].
  - split; [done|]. split; [by apply prefix_app_r|]. congruence.
Qed.

(** X12. Nodes and edges are never removed or reordered: after any session
    the node list and the edge list start with the lists of before.
    While a run is on, no event changes the edge list at all. *)
Theorem graph_only_grows (evs : list Event) (st : State) :
  nodes st `prefix_of` nodes (run evs st) ∧
  edges st `prefix_of` edges (run evs st) ∧
  (∀ ev, isRunning st = true → edges (handle ev st) = edges st).
Proof.
  split; [|split].
  - revert st. induction evs as [|ev evs IH]; intros st; [done|].
    rewrite run_cons. etrans; [|apply IH]. apply handle_graph_grows.
  - revert st. induction evs as [|ev evs IH]; intros st; [done|].
    rewrite run_cons. etrans; [|apply IH]. apply handle_graph_grows.
  - intros ev. apply handle_graph_grows.
Qed.

(** X11. In a session where node clicks hit existing nodes, the
    identifier the next node will get is not in use: no node carries it, no edge
    ends in it, and it is neither visited nor in the frontier.  The
    created node goes to the end of the node list, at the click
    position relative to the canvas. *)
Theorem new_node_is_fresh (evs : list Event) (rect : DOMRect) (e : MouseEvent) :
  wf_session evs initialState = true →
  let st := run evs initialState in
  let id := toString (length (nodes st) + 1) in
  nodes (addNode (Some rect) e st) =
    nodes st ++ [Node.mk id (clientX e - left rect) (clientY e - top rect)] ∧
  (id ∉ (Node.id <$> nodes st)) ∧
  (∀ edge, edge ∈ edges st → Edge.from edge ≠ id ∧ Edge.to edge ≠ id) ∧
  (id ∉ visitedNodes st) ∧ (id ∉ currentQueue st).
Proof.
  intros Hwf st id. pose proof (ids_inv_run evs Hwf) as Hids.
  fold st in Hids.
  assert (Hfresh : id ∉ (Node.id <$> nodes st)).
  { rewrite (ii_seq _ Hids). intros (n & Hn & Hin)%list_elem_of_fmap.
    apply (inj toString) in Hn. apply elem_of_seq in Hin. lia. }
  split; [done|]. split; [done|]. split; [|split].
  - intros edge He. destruct (ii_edges _ Hids edge He) as [Hf Ht].
    split; congruence.
  - intros Hv. by apply Hfresh, (ii_visited _ Hids).
  - intros Hq. by apply Hfresh, (ii_queue _ Hids).
Qed.

Lemma new_node_is_fresh_witness :
  let st := run exampleSession initialState in
  nodes (addNode (Some (mkDOMRect 5 5)) (mkMouseEvent 25 45) st) =
    nodes st ++ [Node.mk "5" 20 40].
Proof.
  exact (proj1 (new_node_is_fresh exampleSession (mkDOMRect 5 5)
                  (mkMouseEvent 25 45) eq_refl)).
Defined.

(** ** Narration after a reset *)

(** X16. Reset does not cancel a narration call that is under way: when a
    call made with a non-empty visited sequence resolves after the
    reset, its text replaces the cleared explanation, while visited
    sequence and frontier stay empty and no start node is set. *)
Theorem late_narration_overwrites_reset
    (generateContent : string → Outcome) (snapshot st : State) (text : string) :
  visitedNodes snapshot ≠ [] →
  generateContent (prompt snapshot) = Resolved text →
  let st' := generateExplanation generateContent snapshot
               (resetVisualization st) in
  explanation (resetVisualization st) = EmptyString ∧
  explanation st' = text ∧
  visitedNodes st' = [] ∧ currentQueue st' = [] ∧ startNode st' = None.
Proof.
  intros Hv Hres. unfold generateExplanation. rewrite Hres.
  rewrite bool_decide_eq_false_2; [done|]. by destruct (visitedNodes snapshot).
Qed.

Lemma late_narration_overwrites_reset_witness :
  let snapshot := handleNodeClick "1" exampleGraph in
  explanation
    (generateExplanation (λ _, Resolved "Node 1 is the start.") snapshot
       (resetVisualization snapshot)) = "Node 1 is the start.".
Proof.
  refine (proj1 (proj2 (late_narration_overwrites_reset
    (λ _, Resolved "Node 1 is the start.")
    (handleNodeClick "1" exampleGraph) (handleNodeClick "1" exampleGraph)
    "Node 1 is the start." _ eq_refl))).
  discriminate.
Defined.

(** ** Breadth-first search on any graph *)

(** What a step appends is paid for by edges that stop being open. *)
Lemma fresh_pays_open_edges (V V' : list string) (current : string)
    (es : list Edge.t) :
  current ∈ V →
  (∀ x, x ∈ V → x ∈ V') →
  (∀ x, x ∈ neighbors_spec es current → x ∉ V → x ∈ V') →
  length (filter (λ n, n ∉ V) (neighbors_spec es current)) +
    length (filter (λ e, Edge.from e ∉ V' ∨ Edge.to e ∉ V') es)
  ≤ length (filter (λ e, Edge.from e ∉ V ∨ Edge.to e ∉ V) es).
Proof.
  intros Hcur Hmono. induction es as [|e es IH]; intros Hnew; [done|].
  assert (Hopen : (Edge.from e ∉ V' ∨ Edge.to e ∉ V') →
                  (Edge.from e ∉ V ∨ Edge.to e ∉ V)).
  { intros [H|H]; [left|right]; intros Hin; by apply H, Hmono. }
  cbn [neighbors_spec] in *.
  rewrite (filter_cons (λ e, Edge.from e ∉ V' ∨ Edge.to e ∉ V')).
  rewrite (filter_cons (λ e, Edge.from e ∉ V ∨ Edge.to e ∉ V)).
  destruct (decide (Edge.from e = current)) as [Hf|Hf];
    [|destruct (decide (Edge.to e = current)) as [Ht|Ht]].
  - specialize (IH (λ x Hx, Hnew x (list_elem_of_further _ _ _ Hx))).
    rewrite filter_cons.
    destruct (decide (Edge.to e ∉ V)) as [Hto|Hto].
    + rewrite (decide_True (P := Edge.from e ∉ V ∨ Edge.to e ∉ V)) by auto.
      rewrite (decide_False (P := Edge.from e ∉ V' ∨ Edge.to e ∉ V')).
      * cbn [length]. lia.
      * intros [H|H]; apply H.
        -- rewrite Hf. by apply Hmono.
        -- apply Hnew; [by left | done].
    + repeat case_decide; cbn [length]; try lia. tauto.
  - specialize (IH (λ x Hx, Hnew x (list_elem_of_further _ _ _ Hx))).
    rewrite filter_cons.
    destruct (decide (Edge.from e ∉ V)) as [Hfrom|Hfrom].
    + rewrite (decide_True (P := Edge.from e ∉ V ∨ Edge.to e ∉ V)) by auto.
      rewrite (decide_False (P := Edge.from e ∉ V' ∨ Edge.to e ∉ V')).
      * cbn [length]. lia.
      * intros [H|H]; apply H.
        -- apply Hnew; [by left | done].
        -- rewrite Ht. by apply Hmono.
    + repeat case_decide; cbn [length]; try lia. tauto.
  - specialize (IH Hnew).
    repeat case_decide; cbn [length]; try lia. tauto.
Qed.

Lemma budget_step st current rest :
  currentQueue st = current :: rest →
  current ∈ visitedNodes st →
  budget (step_spec current rest st) < budget st.
Proof.
  intros Hq Hcur. unfold budget, open_edges. rewrite Hq. cbn.
  rewrite length_app.
  pose proof (fresh_pays_open_edges (visitedNodes st)
    (visitedNodes st ++ fresh_spec st current) current (edges st) Hcur) as Hpay.
  unfold fresh_spec in *. 
  assert (length
     (filter (λ n, n ∉ visitedNodes st) (neighbors_spec (edges st) current)) +
   length
     (filter (λ e, Edge.from e ∉ visitedNodes st ++
                     filter (λ n, n ∉ visitedNodes st)
                       (neighbors_spec (edges st) current)
                   ∨ Edge.to e ∉ visitedNodes st ++
                     filter (λ n, n ∉ visitedNodes st)
                       (neighbors_spec (edges st) current)) (edges st))
   ≤ length
       (filter (λ e, Edge.from e ∉ visitedNodes st ∨
                     Edge.to e ∉ visitedNodes st) (edges st))); [|lia].
  apply Hpay.
  - intros x Hx. apply elem_of_app. by left.
  - intros x Hx Hnv. apply elem_of_app. right.
    by apply list_elem_of_filter.
Qed.

Section AnyGraph.
Variable s : string.

Lemma reach_inv_init st :
  isRunning st = true →
  truthy (startNode st) = false →
  s ≠ EmptyString →
  reach_inv s [] (handleNodeClick s st).
Proof.
  intros Hr Hs Hne. unfold handleNodeClick. rewrite Hr, Hs. cbn.
  split; cbn.
  - done.
  - by left.
  - intros x ->%list_elem_of_singleton. constructor.
  - by intros u v ?%elem_of_nil.
  - by apply truthy_Some_ne.
Qed.

Lemma reach_inv_step processed current rest st :
  reach_inv s processed st →
  currentQueue st = current :: rest →
  reach_inv s (processed ++ [current]) (step_spec current rest st).
Proof.
  intros [Hsplit Hstart Hsound Hcl Hst] Hq.
  assert (Hcur : current ∈ visitedNodes st).
  { rewrite Hsplit, Hq, elem_of_app, elem_of_cons. auto. }
  split; cbn.
  - by rewrite Hsplit, Hq, <- !app_assoc.
  - apply elem_of_app. by left.
  - intros x [Hx|[_ Hadj]%fresh_spec_elem]%elem_of_app; [by apply Hsound|].
    apply connected_step with current; [by apply Hsound | done].
  - intros u v [Hu| ->%list_elem_of_singleton]%elem_of_app Hadj;
      apply elem_of_app.
    + left. by apply (Hcl u).
    + destruct (decide (v ∈ visitedNodes st)) as [Hv|Hv]; [by left|].
      right. by apply fresh_spec_elem.
  - done.
Qed.

Lemma reach_inv_finishes m processed st :
  reach_inv s processed st →
  budget st ≤ m →
  ∃ k processed',
    k ≤ m ∧ reach_inv s processed' (steps k st) ∧
    currentQueue (steps k st) = [].
Proof.
  revert processed st.
  induction m as [|m IH]; intros processed st Hinv Hm;
    destruct (currentQueue st) as [|current rest] eqn:Hq.
  - by exists 0, processed.
  - unfold budget in Hm. rewrite Hq in Hm. cbn in Hm. lia.
  - exists 0, processed. split; [lia|done].
  - assert (Hcur : current ∈ visitedNodes st).
    { rewrite (ri_split _ _ _ Hinv), Hq, elem_of_app, elem_of_cons. auto. }
    pose proof (budget_step st current rest Hq Hcur) as Hdec.
    pose proof (reach_inv_step _ _ _ _ Hinv Hq) as Hinv'.
    destruct (IH _ _ Hinv') as (k & processed' & Hk & Hfin & Hempty); [lia|].
    exists (S k), processed'. rewrite steps_succ_r.
    rewrite (performBFSStep_fire st current rest Hq (ri_started _ _ _ Hinv)).
    split; [lia|done].
Qed.

Lemma reach_inv_complete processed st x :
  reach_inv s processed st →
  currentQueue st = [] →
  x ∈ visitedNodes st ↔ connected (edges st) s x.
Proof.
  intros [Hsplit Hstart Hsound Hcl Hst] Hq.
  rewrite Hq, app_nil_r in Hsplit. split; [apply Hsound|].
  induction 1 as [|u v _ IH Hadj]; [done|].
  apply (Hcl u v); [by rewrite <- Hsplit | done].
Qed.
End AnyGraph.

(** X1. On every graph, parallel edges and self-loops included, the
    traversal started at [s] empties the frontier within |E| + 1 steps
    and then stays as it is; the nodes in the final visited sequence
    are exactly the nodes connected to [s]. *)
Theorem bfs_any_graph (st : State) (s : string) :
  isRunning st = true →
  truthy (startNode st) = false →
  s ≠ EmptyString →
  ∃ k,
    k ≤ length (edges st) + 1 ∧
    let final := steps k (handleNodeClick s st) in
    currentQueue final = [] ∧
    (∀ n, k ≤ n → steps n (handleNodeClick s st) = final) ∧
    ∀ x, x ∈ visitedNodes final ↔ connected (edges st) s x.
Proof.
  intros Hr Hs Hne.
  pose proof (reach_inv_init s st Hr Hs Hne) as Hinv.
  assert (He0 : edges (handleNodeClick s st) = edges st).
  { unfold handleNodeClick. by rewrite Hr, Hs. }
  assert (Hb : budget (handleNodeClick s st) ≤ length (edges st) + 1).
  { unfold budget, open_edges. rewrite He0.
    pose proof (length_filter
      (λ e, Edge.from e ∉ visitedNodes (handleNodeClick s st) ∨
            Edge.to e ∉ visitedNodes (handleNodeClick s st)) (edges st)).
    unfold handleNodeClick at 1. rewrite Hr, Hs. cbn. lia. }
  set (st0 := handleNodeClick s st) in *.
  destruct (reach_inv_finishes s _ [] st0 Hinv Hb)
    as (k & processed & Hk & Hfin & Hempty).
  exists k. split; [done|]. cbn zeta. split; [done|]. split.
  - intros n Hn. replace n with (n - k + k) by lia.
    rewrite steps_add. by apply steps_idle.
  - intros x. destruct (steps_graph k st0) as [_ He].
    rewrite <- He0, <- He. by apply (reach_inv_complete s processed).
Qed.

Lemma bfs_any_graph_witness :
  let st := run (take 7 doubleEdgeSession) initialState in
  ∃ k,
    k ≤ 3 ∧
    let final := steps k (handleNodeClick "1" st) in
    currentQueue final = [] ∧
    (∀ n, k ≤ n → steps n (handleNodeClick "1" st) = final) ∧
    ∀ x, x ∈ visitedNodes final ↔ connected (edges st) "1" x.
Proof.
  apply (bfs_any_graph (run (take 7 doubleEdgeSession) initialState) "1");
    [reflexivity | reflexivity | discriminate].
Defined.

(** ** Breadth-first order *)

Lemma dist_unique es s x d d' : dist es s x d → dist es s x d' → d = d'.
Proof.
  intros [Hw Hmin] [Hw' Hmin'].
  pose proof (Hmin _ Hw'). pose proof (Hmin' _ Hw). lia.
Qed.

Lemma closer_refl es s x : closer es s x x.
Proof. intros dx dy Hx Hy. by rewrite (dist_unique _ _ _ _ _ Hx Hy). Qed.

Lemma StronglySorted_all {A} (R : relation A) (l : list A) :
  (∀ x y, x ∈ l → y ∈ l → R x y) → StronglySorted R l.
Proof.
  induction l as [|a l IH]; intros Hall; constructor.
  - apply IH. intros x y Hx Hy. apply Hall; by right.
  - apply Forall_forall. intros y Hy. apply Hall; [by left | by right].
Qed.

Section Levels.
Variable s : string.

Lemma level_inv_init st :
  isRunning st = true →
  truthy (startNode st) = false →
  s ≠ EmptyString →
  level_inv s [] (handleNodeClick s st).
Proof.
  intros Hr Hs Hne. unfold handleNodeClick. rewrite Hr, Hs. cbn.
  assert (Hd0 : dist (edges st) s s 0).
  { split; [constructor | intros; lia]. }
  split; cbn.
  - done.
  - by left.
  - intros x ->%list_elem_of_singleton. by exists 0.
  - repeat constructor.
  - intros current rest y dc dy [= <- <-] ->%list_elem_of_singleton Hc Hy.
    rewrite (dist_unique _ _ _ _ _ Hc Hy). lia.
  - by intros u v ?%elem_of_nil.
  - by apply truthy_Some_ne.
Qed.

(** Everything within the distance of the head of the frontier is
    already visited. *)
Lemma near_nodes_visited processed current rest st dc :
  level_inv s processed st →
  currentQueue st = current :: rest →
  dist (edges st) s current dc →
  ∀ m y, walk (edges st) s m y → m ≤ dc → y ∈ visitedNodes st.
Proof.
  intros [Hsplit Hstart Hdist Hsorted Hspan Hcl Hst] Hq Hdc m y Hwalk.
  induction Hwalk as [|n u v Hwalk IH Hadj]; intros Hm; [done|].
  assert (Hu : u ∈ visitedNodes st) by (apply IH; lia).
  destruct (Hdist u Hu) as [du Hdu].
  assert (du ≤ n) by (by apply Hdu).
  rewrite Hsplit, Hq in Hu. apply elem_of_app in Hu as [Hu|Hu].
  { by apply (Hcl u). }
  exfalso. assert (Hcu : closer (edges st) s current u).
  { rewrite Hsplit, Hq in Hsorted.
    apply StronglySorted_app_1_r, StronglySorted_inv in Hsorted as [_ Hfa].
    apply elem_of_cons in Hu as [->|Hu]; [apply closer_refl|].
    by apply (proj1 (Forall_forall _ _) Hfa). }
  pose proof (Hcu dc du Hdc Hdu). lia.
Qed.

(** A fresh neighbour of the head of the frontier is exactly one edge
    farther than the head. *)
Lemma fresh_dist processed current rest st dc x :
  level_inv s processed st →
  currentQueue st = current :: rest →
  dist (edges st) s current dc →
  x ∈ fresh_spec st current →
  dist (edges st) s x (dc + 1).
Proof.
  intros Hinv Hq Hdc [Hnv Hadj]%fresh_spec_elem. split.
  - rewrite Nat.add_1_r. apply walk_S with current; [apply Hdc | done].
  - intros m Hwalk. destruct (decide (dc + 1 ≤ m)) as [|Hlt]; [done|].
    exfalso. apply Hnv.
    apply (near_nodes_visited _ _ _ _ _ Hinv Hq Hdc m x Hwalk). lia.
Qed.

Lemma level_inv_step processed current rest st :
  level_inv s processed st →
  currentQueue st = current :: rest →
  level_inv s (processed ++ [current]) (step_spec current rest st).
Proof.
  intros Hinv Hq.
  pose proof Hinv as [Hsplit Hstart Hdist Hsorted Hspan Hcl Hst].
  assert (Hcur : current ∈ visitedNodes st).
  { rewrite Hsplit, Hq, elem_of_app, elem_of_cons. auto. }
  destruct (Hdist current Hcur) as [dc Hdc].
  pose proof (λ x, fresh_dist _ _ _ _ _ x Hinv Hq Hdc) as Hfresh.
  split; cbn.
  - by rewrite Hsplit, Hq, <- !app_assoc.
  - apply elem_of_app. by left.
  - intros x [Hx|Hx]%elem_of_app; [by apply Hdist|].
    exists (dc + 1). by apply Hfresh.
  - apply StronglySorted_app_2; [|done|].
    + intros x y Hx Hy dx dy Hdx Hdy.
      rewrite (dist_unique _ _ _ _ _ Hdy (Hfresh y Hy)).
      by apply (Hspan current rest x dc dx).
    + apply StronglySorted_all. intros x y Hx Hy dx dy Hdx Hdy.
      rewrite (dist_unique _ _ _ _ _ Hdx (Hfresh x Hx)).
      by rewrite (dist_unique _ _ _ _ _ Hdy (Hfresh y Hy)).
  - intros current' rest' y dc' dy Hq' Hy Hdc' Hdy.
    assert (Hle : dc ≤ dc').
    { assert (Hc' : current' ∈ rest ++ fresh_spec st current).
      { rewrite Hq'. by left. }
      apply elem_of_app in Hc' as [Hc'|Hc'].
      - rewrite Hsplit, Hq in Hsorted.
        apply StronglySorted_app_1_r, StronglySorted_inv in Hsorted as [_ Hfa].
        by apply (proj1 (Forall_forall _ _) Hfa current' Hc' dc dc').
      - rewrite (dist_unique _ _ _ _ _ Hdc' (Hfresh _ Hc')). lia. }
    apply elem_of_app in Hy as [Hy|Hy].
    + pose proof (Hspan current rest y dc dy Hq Hy Hdc Hdy). lia.
    + rewrite (dist_unique _ _ _ _ _ Hdy (Hfresh _ Hy)). lia.
  - intros u v [Hu| ->%list_elem_of_singleton]%elem_of_app Hadj;
      apply elem_of_app.
    + left. by apply (Hcl u).
    + destruct (decide (v ∈ visitedNodes st)) as [Hv|Hv]; [by left|].
      right. by apply fresh_spec_elem.
  - done.
Qed.

Lemma level_inv_steps n st :
  (∃ processed, level_inv s processed st) →
  ∃ processed, level_inv s processed (steps n st).
Proof.
  intros Hinv. induction n as [|n [processed IH]]; [done|].
  change (steps (S n) st) with (performBFSStep (steps n st)).
  destruct (currentQueue (steps n st)) as [|current rest] eqn:Hq.
  - rewrite performBFSStep_idle by auto. by exists processed.
  - rewrite (performBFSStep_fire _ current rest Hq (li_started _ _ _ IH)).
    eexists. by apply level_inv_step.
Qed.
End Levels.

(** X2. On every graph the traversal is breadth-first: at every moment of a
    traversal started at [s], each visited node has a distance from
    [s], and the visited sequence lists the nodes in order of distance:
    a node never comes before a node that is nearer to [s]. *)
Theorem visited_in_distance_order (st : State) (s : string) (n : nat) :
  isRunning st = true →
  truthy (startNode st) = false →
  s ≠ EmptyString →
  let now := steps n (handleNodeClick s st) in
  (∀ x, x ∈ visitedNodes now → ∃ d, dist (edges st) s x d) ∧
  ∀ i j x y dx dy,
    i ≤ j →
    visitedNodes now !! i = Some x → visitedNodes now !! j = Some y →
    dist (edges st) s x dx → dist (edges st) s y dy →
    dx ≤ dy.
Proof.
  intros Hr Hs Hne now.
  destruct (level_inv_steps s n (handleNodeClick s st)) as [processed Hinv].
  { exists []. by apply level_inv_init. }
  fold now in Hinv.
  assert (He : edges now = edges st).
  { subst now. destruct (steps_graph n (handleNodeClick s st)) as [_ ->].
    unfold handleNodeClick. by rewrite Hr, Hs. }
  destruct Hinv as [_ _ Hdist Hsorted _ _ _]. rewrite He in *.
  split; [done|].
  intros i j x y dx dy Hij Hi Hj Hdx Hdy.
  destruct (decide (i = j)) as [->|Hne'].
  { rewrite Hi in Hj. injection Hj as ->. by apply (closer_refl (edges st) s y). }
  assert (Hlt : i < j) by lia.
  apply lookup_lt_Some in Hj as Hjlen.
  rewrite <- (take_drop_middle _ _ _ Hj) in Hsorted.
  apply (StronglySorted_app_1_elem_of _ _ _ x y) in Hsorted.
  - by apply Hsorted.
  - apply list_elem_of_lookup. exists i. by rewrite lookup_take_lt.
  - by left.
Qed.

Lemma visited_in_distance_order_witness :
  ∃ d, dist (edges exampleGraph) "1" "4" d.
Proof.
  apply (proj1 (visited_in_distance_order exampleGraph "1" 2
                  eq_refl eq_refl ltac:(discriminate)) "4").
  by apply (bool_decide_unpack _).
Defined.
